(** * Token-gated chat gateway: a shallow embedding of [tokenAccessManager.js]

    The development follows the chat part of [TokenAccessManager]:
    [checkAccess], the three message handlers installed by [initChatServer]
    together with the [close] handler, [authenticateUser],
    [getUserAccessibleRooms], [addUserToRoom], [removeUserFromRooms] and
    [broadcastToRoom].

    - [this.userSessions] and [this.chatRooms] are JavaScript [Map]s; only
      [has]/[get]/[set]/[delete] are used on them, so they are finite maps.
    - A room and [session.rooms] are JavaScript [Set]s that the code iterates
      over, so they are lists in insertion order (module [JsSet]).
    - A handler is [async]; each invocation is taken as one atomic step, the
      answers of the outside world (signature recovery, ledger, socket
      states, clock) being an [Env] given to the step. A run therefore
      describes frames that are handled one after the other's completion;
      a frame dispatched while an earlier handler of the same socket is
      suspended at an [await] is outside of it.
    - [ws.send] is recorded as an effect of the step.

    The trading methods [getKeyPrice], [buyKeys] and [sellKeys] are
    embedded over a [Chain] of contract calls, the state-changing calls
    they make being returned beside their result. *)

From Stdlib Require Import ZArith.
From stdpp Require Import base option list gmap strings pretty.

(** ** JavaScript building blocks *)

(** Outcome of an expression evaluated inside [try]: a value, or a thrown
    error with its message. *)
Inductive Result (A : Type) : Type :=
| Ok (a : A)
| Throw (msg : string).
Arguments Ok {A} a.
Arguments Throw {A} msg.

(** Insertion-ordered [Set]. *)
Module JsSet.
Section ops.
Context {A : Type} `{EqDecision A}.

Definition add (x : A) (s : list A) : list A :=
  if decide (x ∈ s) then s else s ++ [x].

Definition delete (x : A) (s : list A) : list A :=
  filter (λ y, y ≠ x) s.

Definition size (s : list A) : nat := length s.

(** [new Set(iterable)], also a [forEach] of [add] on a fresh set. *)
Definition of_list (l : list A) : list A :=
  foldl (λ s x, add x s) [] l.

End ops.
End JsSet.

(** ** Data *)

(** A socket object [ws]; two sockets are the same object iff the handles
    are equal. *)
Abbreviation Conn := nat.
(** A recovered address; a room is named by its creator's address. *)
Abbreviation Identity := string.
Abbreviation RoomId := string.

(** The fields that the handlers read from [data = JSON.parse(message)].
    [f_type] is [None] when [data.type] is missing or is not a string. The
    other fields are only handed on (to the verifier, to the ledger, as a
    key of [chatRooms], into the outgoing frame), so each is kept as the
    string that names the value. *)
Record Data : Type := {
  f_type : option string;
  f_signature : string;
  f_message : string;
  f_creatorAddress : RoomId;
  f_roomId : RoomId;
  f_content : string
}.

(** What [JSON.parse(message)] makes of an inbound frame. *)
Inductive Inbound : Type :=
| NotJson                (* JSON.parse throws *)
| JsonNull               (* the value null: reading data.type throws *)
| Json (data : Data).    (* any other value *)

(** Frames written with [ws.send(JSON.stringify(...))]. *)
Inductive OutFrame : Type :=
| auth_result (success : bool) (rooms : list RoomId)
| error (message : string)
| room_joined (roomId : RoomId)
| new_message (sender : Identity) (content : string) (timestamp : Z).

(** Effects of a handler on sockets. No handler of the module closes a
    socket; [CloseSocket] is there so that this can be said. *)
Inductive Effect : Type :=
| Send (to : Conn) (frame : OutFrame)
| CloseSocket (ws : Conn).

(** The value stored in [userSessions]. *)
Record Session : Type := {
  sess_userId : Identity;
  rooms : list RoomId
}.

(** The variables [userId] and [accessibleRooms] captured by the handlers of
    one connection. *)
Record Closure : Type := {
  userId : option Identity;
  accessibleRooms : list RoomId
}.

Definition fresh_closure : Closure :=
  {| userId := None; accessibleRooms := [] |}.

Record State : Type := {
  closures : gmap Conn Closure;
  userSessions : gmap Conn Session;
  chatRooms : gmap RoomId (list Conn)
}.

Definition init : State :=
  {| closures := ∅; userSessions := ∅; chatRooms := ∅ |}.

(** The closure of [ws]; a connection that has not run a handler yet holds
    the initial values [null] and [[]]. *)
Definition closure (st : State) (ws : Conn) : Closure :=
  default fresh_closure (closures st !! ws).

(** The outside world as one handler invocation sees it. *)
Record Env : Type := {
  (* ethers.utils.verifyMessage(message, signature) *)
  verifyMessage : string → string → Result Identity;
  (* contract.keysBalance(userAddress, creatorAddress), a BigNumber *)
  keysBalance : Identity → string → Result Z;
  (* event.args.subject of the KeyPurchase events of a buyer *)
  queryFilter : option Identity → Result (list RoomId);
  (* ws.readyState; 1 is OPEN *)
  readyState : Conn → Z;
  (* Date.now() *)
  now : Z
}.

(** JavaScript truthiness of [userId]: [null] and the empty string are
    falsy. *)
Definition truthy (u : option Identity) : bool :=
  match u with
  | Some s => bool_decide (s ≠ "")
  | None => false
  end.

(** ** [checkAccess] *)

(** [keysBalance] resolves to an ethers v5 [BigNumber] (the code calls
    [gt] and [toNumber] on it). [BigNumber.toNumber] throws an overflow
    fault when the value lies outside the JavaScript safe integers, that
    is beyond 2^53 - 1 in absolute value. *)
Definition MAX_SAFE_INTEGER : Z := 2 ^ 53 - 1.

Definition toNumber (b : Z) : Result Z :=
  if decide (- MAX_SAFE_INTEGER ≤ b ≤ MAX_SAFE_INTEGER)%Z
  then Ok b else Throw "overflow".

Record AccessResult : Type := {
  hasAccess : bool;
  keyCount : option Z;
  access_error : option string
}.

Definition checkAccess (env : Env) (userAddress : Identity)
    (creatorAddress : string) : AccessResult :=
  match keysBalance env userAddress creatorAddress with
  | Ok balance =>
      match toNumber balance with
      | Ok n =>
          {| hasAccess := bool_decide (0 < balance)%Z;
             keyCount := Some n;
             access_error := None |}
      | Throw msg =>
          {| hasAccess := false; keyCount := None; access_error := Some msg |}
      end
  | Throw msg =>
      {| hasAccess := false; keyCount := None; access_error := Some msg |}
  end.

(** ** Key trading: [getKeyPrice], [buyKeys], [sellKeys] *)

(** A wallet handed in by the caller, and the signer it becomes once
    connected to the provider. *)
Abbreviation Wallet := string.
Abbreviation Signer := string.

(** The contract and the ethers helpers as one call of a trading method
    sees them. Amounts and prices are [BigNumber]s, of any size. *)
Record Chain : Type := {
  (* contract.getKeySupply(creatorAddress) *)
  getKeySupply : string → Result Z;
  (* contract.getBuyPrice(creatorAddress, amount) *)
  getBuyPrice : string → Z → Result Z;
  (* contract.getSellPrice(creatorAddress, amount) *)
  getSellPrice : string → Z → Result Z;
  (* wallet.connect(provider) followed by contract.connect(signer) *)
  connect : Wallet → Result Signer;
  (* contractWithSigner.buyKeys(creatorAddress, amount, {value}): tx.hash *)
  submitBuyKeys : Signer → string → Z → Z → Result string;
  (* contractWithSigner.sellKeys(creatorAddress, amount): tx.hash *)
  submitSellKeys : Signer → string → Z → Result string;
  (* ethers.utils.formatEther *)
  formatEther : Z → string
}.

(** The state-changing contract calls a trading method makes. *)
Inductive ContractCall : Type :=
| buyKeysCall (signer : Signer) (creatorAddress : string) (amount value : Z)
| sellKeysCall (signer : Signer) (creatorAddress : string) (amount : Z).

(** The objects the trading methods return. *)
Inductive TradeResult : Type :=
| BuySuccess (transaction keyPrice fee totalCost : string)
| SellSuccess (transaction salePrice : string)
| TradeFailure (error : string).

(** The supply is awaited first and not used; anything thrown is rethrown
    under a new message. *)
Definition getKeyPrice (chain : Chain) (creatorAddress action : string)
    : Result Z :=
  let attempt :=
    match getKeySupply chain creatorAddress with
    | Ok keySupply =>
        if decide (action = "buy") then getBuyPrice chain creatorAddress 1
        else getSellPrice chain creatorAddress 1
    | Throw msg => Throw msg
    end in
  match attempt with
  | Ok price => Ok price
  | Throw msg => Throw ("Failed to get key price: " +:+ msg)
  end.

(** [amount] is [None] when the argument is left out. [BigNumber.div]
    truncates. *)
Definition buyKeys (chain : Chain) (buyerWallet : Wallet)
    (creatorAddress : string) (amount : option Z)
    : TradeResult * list ContractCall :=
  let amount := default 1%Z amount in
  match getBuyPrice chain creatorAddress amount with
  | Throw msg => (TradeFailure msg, [])
  | Ok keyPrice =>
      let fee := ((keyPrice * 10) `quot` 100)%Z in
      let totalCost := (keyPrice + fee)%Z in
      match connect chain buyerWallet with
      | Throw msg => (TradeFailure msg, [])
      | Ok signer =>
          let call := buyKeysCall signer creatorAddress amount totalCost in
          match submitBuyKeys chain signer creatorAddress amount totalCost with
          | Throw msg => (TradeFailure msg, [call])
          | Ok hash =>
              (BuySuccess hash (formatEther chain keyPrice)
                 (formatEther chain fee) (formatEther chain totalCost),
               [call])
          end
      end
  end.

Definition sellKeys (chain : Chain) (sellerWallet : Wallet)
    (creatorAddress : string) (amount : option Z)
    : TradeResult * list ContractCall :=
  let amount := default 1%Z amount in
  match connect chain sellerWallet with
  | Throw msg => (TradeFailure msg, [])
  | Ok signer =>
      let call := sellKeysCall signer creatorAddress amount in
      match submitSellKeys chain signer creatorAddress amount with
      | Throw msg => (TradeFailure msg, [call])
      | Ok hash =>
          match getSellPrice chain creatorAddress amount with
          | Throw msg => (TradeFailure msg, [call])
          | Ok keyPrice =>
              (SellSuccess hash (formatEther chain keyPrice), [call])
          end
      end
  end.

(** ** Private methods *)

Definition authenticateUser (env : Env) (signature message : string)
    : option Identity :=
  match verifyMessage env message signature with
  | Ok recoveredAddress => Some recoveredAddress
  | Throw _ => None
  end.

Definition getUserAccessibleRooms (env : Env) (userAddress : option Identity)
    : list RoomId :=
  match queryFilter env userAddress with
  | Ok subjects => JsSet.of_list subjects
  | Throw _ => []
  end.

Definition addUserToRoom (ws : Conn) (uid : Identity) (roomId : RoomId)
    (st : State) : State * list Effect :=
  let rooms0 :=
    match chatRooms st !! roomId with
    | Some _ => chatRooms st
    | None => <[roomId := []]> (chatRooms st)
    end in
  let room := default [] (rooms0 !! roomId) in
  let rooms1 := <[roomId := JsSet.add ws room]> rooms0 in
  ({| closures := closures st;
      userSessions :=
        <[ws := {| sess_userId := uid; rooms := JsSet.of_list [roomId] |}]>
          (userSessions st);
      chatRooms := rooms1 |},
   [Send ws (room_joined roomId)]).

(** One turn of the loop of [removeUserFromRooms]. *)
Definition leaveRoom (ws : Conn) (cr : gmap RoomId (list Conn))
    (roomId : RoomId) : gmap RoomId (list Conn) :=
  match cr !! roomId with
  | Some room =>
      let room' := JsSet.delete ws room in
      if decide (JsSet.size room' = 0) then base.delete roomId cr
      else <[roomId := room']> cr
  | None => cr
  end.

Definition removeUserFromRooms (ws : Conn) (uid : Identity) (st : State)
    : State :=
  match userSessions st !! ws with
  | None => st
  | Some session =>
      {| closures := closures st;
         userSessions := base.delete ws (userSessions st);
         chatRooms := foldl (leaveRoom ws) (chatRooms st) (rooms session) |}
  end.

(** The loop of [broadcastToRoom] over the members of a room. *)
Fixpoint fanOut (env : Env) (messageStr : OutFrame) (excludeWs : option Conn)
    (room : list Conn) : list Effect :=
  match room with
  | [] => []
  | client :: rest =>
      if decide (Some client ≠ excludeWs ∧ readyState env client = 1%Z)
      then Send client messageStr :: fanOut env messageStr excludeWs rest
      else fanOut env messageStr excludeWs rest
  end.

Definition broadcastToRoom (env : Env) (roomId : RoomId) (message : OutFrame)
    (excludeWs : option Conn) (st : State) : list Effect :=
  match chatRooms st !! roomId with
  | None => []
  | Some room => fanOut env message excludeWs room
  end.



(** ** The handlers of [initChatServer] *)

Definition set_closure (ws : Conn) (c : Closure) (st : State) : State :=
  {| closures := <[ws := c]> (closures st);
     userSessions := userSessions st;
     chatRooms := chatRooms st |}.

Definition invalid_format : OutFrame := error "Invalid message format".
Definition not_authenticated : OutFrame := error "Not authenticated".
Definition no_access : OutFrame :=
  error "You do not have access to this room. Purchase keys first.".

Definition onAuth (env : Env) (ws : Conn) (data : Data) (st : State)
    : State * list Effect :=
  let uid := authenticateUser env (f_signature data) (f_message data) in
  let acc := getUserAccessibleRooms env uid in
  (set_closure ws {| userId := uid; accessibleRooms := acc |} st,
   [Send ws (auth_result (truthy uid) acc)]).

Definition onJoinRoom (env : Env) (ws : Conn) (data : Data) (st : State)
    : State * list Effect :=
  match userId (closure st ws) with
  | Some uid =>
      if truthy (Some uid) then
        if hasAccess (checkAccess env uid (f_creatorAddress data))
        then addUserToRoom ws uid (f_creatorAddress data) st
        else (st, [Send ws no_access])
      else (st, [Send ws not_authenticated])
  | None => (st, [Send ws not_authenticated])
  end.

Definition onSendMessage (env : Env) (ws : Conn) (data : Data) (st : State)
    : State * list Effect :=
  match userId (closure st ws) with
  | Some uid =>
      if truthy (Some uid) then
        (st, broadcastToRoom env (f_roomId data)
               (new_message uid (f_content data) (now env)) (Some ws) st)
      else (st, [Send ws not_authenticated])
  | None => (st, [Send ws not_authenticated])
  end.

(** [ws.on('message', ...)]: the [switch] has no [default], and everything
    thrown inside the [try] ends in the [catch]. *)
Definition onMessage (env : Env) (ws : Conn) (message : Inbound) (st : State)
    : State * list Effect :=
  match message with
  | NotJson => (st, [Send ws invalid_format])
  | JsonNull => (st, [Send ws invalid_format])
  | Json data =>
      if decide (f_type data = Some "auth") then onAuth env ws data st
      else if decide (f_type data = Some "join_room")
      then onJoinRoom env ws data st
      else if decide (f_type data = Some "send_message")
      then onSendMessage env ws data st
      else (st, [])
  end.

(** [ws.on('close', ...)]. *)
Definition onClose (ws : Conn) (st : State) : State :=
  match userId (closure st ws) with
  | Some uid => if truthy (Some uid) then removeUserFromRooms ws uid st else st
  | None => st
  end.

(** ** Runs of the server *)

Inductive Event : Type :=
| Message (ws : Conn) (message : Inbound)
| Close (ws : Conn).

Definition step (env : Env) (ev : Event) (st : State) : State * list Effect :=
  match ev with
  | Message ws message => onMessage env ws message st
  | Close ws => (onClose ws st, [])
  end.

(** A run: each event comes with the world it is handled in. The effects
    are collected in order. *)
Fixpoint run (tr : list (Env * Event)) (st : State) : State * list Effect :=
  match tr with
  | [] => (st, [])
  | (env, ev) :: tr' =>
      let '(st1, out1) := step env ev st in
      let '(st2, out2) := run tr' st1 in
      (st2, out1 ++ out2)
  end.

(** ** Views of the state used by the statements *)

(** [membersOf(R)]: the sockets in the room's set, none for an absent
    room. *)
Definition membersOf (st : State) (roomId : RoomId) : list Conn :=
  default [] (chatRooms st !! roomId).

(** [joinedRooms(C)]: the rooms of the session stored for the socket, none
    when no session is stored. *)
Definition joinedRooms (st : State) (ws : Conn) : list RoomId :=
  match userSessions st !! ws with
  | Some session => rooms session
  | None => []
  end.

(** The frames sent to one socket. *)
Fixpoint sentTo (ws : Conn) (out : list Effect) : list OutFrame :=
  match out with
  | [] => []
  | Send to frame :: out' =>
      if decide (to = ws) then frame :: sentTo ws out' else sentTo ws out'
  | CloseSocket _ :: out' => sentTo ws out'
  end.

(** The sockets that a list of effects delivers to, in order. *)
Fixpoint recipients (out : list Effect) : list Conn :=
  match out with
  | [] => []
  | Send to _ :: out' => to :: recipients out'
  | CloseSocket _ :: out' => recipients out'
  end.

(** Who a broadcast on behalf of [ws] reaches: every other socket whose
    transport is open. *)
Definition deliverable (env : Env) (ws : Conn) (client : Conn) : Prop :=
  client ≠ ws ∧ readyState env client = 1%Z.

#[global] Instance deliverable_dec env ws client :
  Decision (deliverable env ws client).
Proof. unfold deliverable. apply _. Defined.

(** A frame the [switch] has a case for. *)
Definition recognized (message : Inbound) : bool :=
  match message with
  | Json data =>
      bool_decide (f_type data = Some "auth"
                   ∨ f_type data = Some "join_room"
                   ∨ f_type data = Some "send_message")
  | _ => false
  end.

(** ** Sample worlds and frames for the concrete runs *)

(** A world where a signature recovers to the signer it spells out, every
    balance is [balance], the sockets listed in [gone] are closing or closed
    and all others are open. *)
Definition world_without (gone : list Conn) (balance : Z) : Env :=
  {| verifyMessage := λ _ signature,
       if decide (signature = "") then Throw "invalid signature"
       else Ok signature;
     keysBalance := λ _ _, Ok balance;
     queryFilter := λ _, Ok [];
     readyState := λ client, if decide (client ∈ gone) then 3%Z else 1%Z;
     now := 0%Z |}.

Definition world (balance : Z) : Env := world_without [] balance.

Definition fields (type : option string) (signature creatorAddress roomId
    content : string) : Data :=
  {| f_type := type; f_signature := signature; f_message := "login";
     f_creatorAddress := creatorAddress; f_roomId := roomId;
     f_content := content |}.

Definition auth (signature : string) : Data :=
  fields (Some "auth") signature "" "" "".
Definition join_room (creatorAddress : RoomId) : Data :=
  fields (Some "join_room") "" creatorAddress "" "".
Definition send_message (roomId : RoomId) (content : string) : Data :=
  fields (Some "send_message") "" "" roomId content.

(** [ws] sends the frame in a world where every balance is 1. *)
Definition says (ws : Conn) (data : Data) : Env * Event :=
  (world 1, Message ws (Json data)).

(** Socket 1 has authenticated as alice. *)
Definition alice_online : State :=
  (run [says 1 (auth "alice")] init).1.

(** Socket 1 (alice) is authenticated and in no room; socket 2 (bob) is the
    one member of room R. *)
Definition bob_in_R : State :=
  (run [says 1 (auth "alice"); says 2 (auth "bob"); says 2 (join_room "R")]
     init).1.

(** Sockets 1, 2 and 3 (alice, bob, carol) are the members of room R. *)
Definition three_in_R : State :=
  (run [says 1 (auth "alice"); says 2 (auth "bob"); says 3 (auth "carol");
        says 1 (join_room "R"); says 2 (join_room "R");
        says 3 (join_room "R")] init).1.

(** Socket 1 (alice) has joined room R1 and then room R2. *)
Definition alice_joins_twice : list (Env * Event) :=
  [says 1 (auth "alice"); says 1 (join_room "R1"); says 1 (join_room "R2")].

(** A chain whose three read calls answer as given, where every wallet
    with a name connects as itself, every transaction goes through, and
    amounts are printed in wei. *)
Definition chain_with (supply buyPrice sellPrice : Result Z) : Chain :=
  {| getKeySupply := λ _, supply;
     getBuyPrice := λ _ _, buyPrice;
     getSellPrice := λ _ _, sellPrice;
     connect := λ wallet,
       if decide (wallet = "") then Throw "missing wallet" else Ok wallet;
     submitBuyKeys := λ _ _ _ _, Ok "0xb1";
     submitSellKeys := λ _ _ _, Ok "0x5e";
     formatEther := λ wei, pretty wei |}.

(** A world like [world 0] whose ledger cannot be reached. *)
Definition ledger_down : Env :=
  {| verifyMessage := verifyMessage (world 0);
     keysBalance := λ _ _, Throw "network error";
     queryFilter := λ _, Throw "network error";
     readyState := readyState (world 0);
     now := 0%Z |}.

(** Alice and bob join R, carol joins S, and alice leaves. *)
Definition busy_evening : list (Env * Event) :=
  [says 1 (auth "alice"); says 2 (auth "bob"); says 3 (auth "carol");
   says 1 (join_room "R"); says 2 (join_room "R"); says 3 (join_room "S");
   (world 1, Close 1)].

(** ** Invariants of the registries, as predicates *)

(** No room of the registry has an empty member set. *)
Definition rooms_inhabited (cr : gmap RoomId (list Conn)) : Prop :=
  ∀ roomId room, cr !! roomId = Some room → room ≠ [].

(** A member set holds a socket at most once. *)
Definition rooms_NoDup (cr : gmap RoomId (list Conn)) : Prop :=
  ∀ roomId room, cr !! roomId = Some room → NoDup room.

(** Every room of a stored session has the socket as a member. *)
Definition sessions_in_rooms (st : State) : Prop :=
  ∀ ws roomId, roomId ∈ joinedRooms st ws → ws ∈ membersOf st roomId.

(** How one step can move the two registries. *)
Inductive registry_move (st st' : State) : Prop :=
| move_none :
    userSessions st' = userSessions st → chatRooms st' = chatRooms st →
    registry_move st st'
| move_join ws uid roomId :
    userSessions st' = userSessions (addUserToRoom ws uid roomId st).1 →
    chatRooms st' = chatRooms (addUserToRoom ws uid roomId st).1 →
    registry_move st st'
| move_drop ws uid :
    userSessions st' = userSessions (removeUserFromRooms ws uid st) →
    chatRooms st' = chatRooms (removeUserFromRooms ws uid st) →
    registry_move st st'.

Record registry_ok (st : State) : Prop := {
  ok_inhabited : rooms_inhabited (chatRooms st);
  ok_NoDup : rooms_NoDup (chatRooms st);
  ok_sessions : sessions_in_rooms st
}.

(** Closed goals are settled by running the model. *)
Ltac by_evaluation :=
  first [ vm_compute; reflexivity
        | apply (bool_decide_unpack _); vm_compute; exact I ].

(** * Properties *)

(** ** The dispatch of [onMessage] *)

Lemma onMessage_auth env ws data st :
  f_type data = Some "auth" →
  onMessage env ws (Json data) st = onAuth env ws data st.
Proof. intros Hty. unfold onMessage. rewrite Hty. by repeat case_decide. Qed.

Lemma onMessage_join_room env ws data st :
  f_type data = Some "join_room" →
  onMessage env ws (Json data) st = onJoinRoom env ws data st.
Proof. intros Hty. unfold onMessage. rewrite Hty. by repeat case_decide. Qed.

Lemma onMessage_send_message env ws data st :
  f_type data = Some "send_message" →
  onMessage env ws (Json data) st = onSendMessage env ws data st.
Proof. intros Hty. unfold onMessage. rewrite Hty. by repeat case_decide. Qed.

Lemma truthy_Some uid : uid ≠ "" → truthy (Some uid) = true.
Proof. intros Hne. unfold truthy. by rewrite bool_decide_eq_true. Qed.

Lemma truthy_true u : truthy u = true → ∃ uid, u = Some uid ∧ uid ≠ "".
Proof.
  destruct u as [uid|]; simpl; [|done].
  rewrite bool_decide_eq_true. eauto.
Qed.

(** ** The fan-out loop *)

Lemma fanOut_map env frame ws room :
  fanOut env frame (Some ws) room
  = (λ client, Send client frame) <$> filter (deliverable env ws) room.
Proof.
  induction room as [|client rest IH]; [done|].
  simpl. rewrite filter_cons.
  destruct (decide (deliverable env ws client)) as [[Hne Hopen]|Hno].
  - rewrite decide_True by (split; [congruence|done]).
    simpl. by rewrite IH.
  - rewrite decide_False; [done|].
    intros [Hne Hopen]. apply Hno. split; [congruence|done].
Qed.

Lemma recipients_Send (frame : OutFrame) (l : list Conn) :
  recipients ((λ client, Send client frame) <$> l) = l.
Proof. induction l as [|c l IH]; [done|]. rewrite fmap_cons. simpl. by rewrite IH. Qed.

Lemma broadcastToRoom_members env roomId frame ws st :
  broadcastToRoom env roomId frame (Some ws) st
  = (λ client, Send client frame)
      <$> filter (deliverable env ws) (membersOf st roomId).
Proof.
  unfold broadcastToRoom, membersOf.
  destruct (chatRooms st !! roomId) as [room|]; simpl; [|done].
  apply fanOut_map.
Qed.

Lemma onSendMessage_authenticated env ws data st uid :
  userId (closure st ws) = Some uid → uid ≠ "" →
  onSendMessage env ws data st
  = (st, (λ client, Send client
                      (new_message uid (f_content data) (now env)))
           <$> filter (deliverable env ws) (membersOf st (f_roomId data))).
Proof.
  intros Hid Hne. unfold onSendMessage.
  rewrite Hid, (truthy_Some _ Hne). by rewrite broadcastToRoom_members.
Qed.

Lemma onSendMessage_unauthenticated env ws data st :
  truthy (userId (closure st ws)) = false →
  onSendMessage env ws data st = (st, [Send ws not_authenticated]).
Proof.
  intros Hno. unfold onSendMessage.
  destruct (userId (closure st ws)) as [uid|]; [|done]. by rewrite Hno.
Qed.



(** ** Sending *)

(** C10. A [send_message] of an authenticated connection to a room that
    the registry does not hold does nothing: no frame goes to anybody, not
    even an error frame to the sender, and sessions, rooms and closures are
    what they were. *)
Theorem send_to_absent_room_is_silent env ws data st uid :
  f_type data = Some "send_message" →
  userId (closure st ws) = Some uid → uid ≠ "" →
  chatRooms st !! f_roomId data = None →
  onMessage env ws (Json data) st = (st, []).
Proof.
  intros Hty Hid Hne Habsent.
  rewrite (onMessage_send_message _ _ _ _ Hty).
  rewrite (onSendMessage_authenticated _ _ _ _ _ Hid Hne).
  unfold membersOf. by rewrite Habsent.
Qed.

(** C2 (amended). The only precondition of a send is the sender's
    identity: an unauthenticated sender gets the single frame
    [error "Not authenticated"] and nobody else gets anything; an
    authenticated sender's message goes to every open member of the room
    other than the sender, whether or not the sender is a member, and no
    error frame is produced. The state is unchanged either way. *)
Theorem send_message_checks_identity_only env ws data st :
  f_type data = Some "send_message" →
  (truthy (userId (closure st ws)) = false →
     onMessage env ws (Json data) st = (st, [Send ws not_authenticated]))
  ∧ (∀ uid, userId (closure st ws) = Some uid → uid ≠ "" →
     onMessage env ws (Json data) st
     = (st, (λ client, Send client
                         (new_message uid (f_content data) (now env)))
              <$> filter (deliverable env ws)
                    (membersOf st (f_roomId data)))).
Proof.
  intros Hty. rewrite (onMessage_send_message _ _ _ _ Hty). split.
  - apply onSendMessage_unauthenticated.
  - intros uid. apply onSendMessage_authenticated.
Qed.


(** ** The access decision *)

Lemma toNumber_Ok b n :
  toNumber b = Ok n ↔ (- MAX_SAFE_INTEGER ≤ b ≤ MAX_SAFE_INTEGER)%Z ∧ n = b.
Proof.
  unfold toNumber. case_decide; split.
  - intros [= ->]. done.
  - intros [_ ->]. done.
  - done.
  - intros [? _]. done.
Qed.

(** [hasAccess] is set exactly for a positive balance that [toNumber]
    converts. *)
Lemma checkAccess_hasAccess env user creator :
  hasAccess (checkAccess env user creator) = true
  ↔ ∃ balance, keysBalance env user creator = Ok balance
               ∧ (0 < balance ≤ MAX_SAFE_INTEGER)%Z.
Proof.
  unfold checkAccess, toNumber.
  destruct (keysBalance env user creator) as [balance|msg].
  - case_decide as Hsafe; simpl.
    + rewrite bool_decide_eq_true. split.
      * intros Hpos. exists balance. split; [done|]. split; [done|]. apply Hsafe.
      * intros (b & [= <-] & Hpos & _). done.
    + split; [done|]. intros (b & [= <-] & Hpos & Hmax).
      exfalso. apply Hsafe. split; [|done].
      unfold MAX_SAFE_INTEGER in *. lia.
  - simpl. split; [done|]. intros (b & Hb & _). done.
Qed.

(** Fail-closed: a ledger query that throws gives no access. *)
Lemma checkAccess_ledger_unavailable env user creator msg :
  keysBalance env user creator = Throw msg →
  hasAccess (checkAccess env user creator) = false.
Proof. intros Hthrow. unfold checkAccess. by rewrite Hthrow. Qed.


(** ** Joining *)

Lemma onJoinRoom_unauthenticated env ws data st :
  truthy (userId (closure st ws)) = false →
  onJoinRoom env ws data st = (st, [Send ws not_authenticated]).
Proof.
  intros Hno. unfold onJoinRoom.
  destruct (userId (closure st ws)) as [uid|]; [|done]. by rewrite Hno.
Qed.

Lemma onJoinRoom_denied env ws data st uid :
  userId (closure st ws) = Some uid → uid ≠ "" →
  hasAccess (checkAccess env uid (f_creatorAddress data)) = false →
  onJoinRoom env ws data st = (st, [Send ws no_access]).
Proof.
  intros Hid Hne Hdeny. unfold onJoinRoom.
  by rewrite Hid, (truthy_Some _ Hne), Hdeny.
Qed.

Lemma onJoinRoom_admitted env ws data st uid :
  userId (closure st ws) = Some uid → uid ≠ "" →
  hasAccess (checkAccess env uid (f_creatorAddress data)) = true →
  onJoinRoom env ws data st = addUserToRoom ws uid (f_creatorAddress data) st.
Proof.
  intros Hid Hne Hok. unfold onJoinRoom.
  by rewrite Hid, (truthy_Some _ Hne), Hok.
Qed.

Lemma JsSet_add_elem {A} `{EqDecision A} (x y : A) (s : list A) :
  y ∈ JsSet.add x s ↔ y = x ∨ y ∈ s.
Proof.
  unfold JsSet.add. case_decide as Hin.
  - split; [by right|]. intros [->|]; done.
  - rewrite elem_of_app, list_elem_of_singleton. tauto.
Qed.

Lemma JsSet_add_NoDup {A} `{EqDecision A} (x : A) (s : list A) :
  NoDup s → NoDup (JsSet.add x s).
Proof.
  intros Hnd. unfold JsSet.add. case_decide as Hin; [done|].
  apply NoDup_app. split; [done|]. split; [|apply NoDup_singleton].
  intros y Hy ->%list_elem_of_singleton. done.
Qed.

Lemma JsSet_delete_elem {A} `{EqDecision A} (x y : A) (s : list A) :
  y ∈ JsSet.delete x s ↔ y ≠ x ∧ y ∈ s.
Proof. unfold JsSet.delete. apply (list_elem_of_filter (λ z, z ≠ x)). Qed.

(** The room that [addUserToRoom] touches gains the socket; the other
    rooms are as before. *)
Lemma addUserToRoom_members ws uid roomId st other :
  membersOf (addUserToRoom ws uid roomId st).1 other
  = if decide (other = roomId) then JsSet.add ws (membersOf st roomId)
    else membersOf st other.
Proof.
  unfold addUserToRoom, membersOf. simpl.
  case_decide as Heq.
  - subst other. rewrite lookup_insert_eq. simpl.
    destruct (chatRooms st !! roomId) as [room|] eqn:Hroom.
    + by rewrite Hroom.
    + by rewrite lookup_insert_eq.
  - rewrite lookup_insert_ne by done.
    destruct (chatRooms st !! roomId) as [room|] eqn:Hroom; [done|].
    by rewrite lookup_insert_ne.
Qed.

Lemma addUserToRoom_session ws uid roomId st :
  userSessions (addUserToRoom ws uid roomId st).1 !! ws
  = Some {| sess_userId := uid; rooms := [roomId] |}.
Proof. unfold addUserToRoom. simpl. by rewrite lookup_insert_eq. Qed.

Lemma addUserToRoom_other_session ws uid roomId st other :
  other ≠ ws →
  userSessions (addUserToRoom ws uid roomId st).1 !! other
  = userSessions st !! other.
Proof. intros Hne. unfold addUserToRoom. simpl. by rewrite lookup_insert_ne. Qed.

Lemma addUserToRoom_out ws uid roomId st :
  (addUserToRoom ws uid roomId st).2 = [Send ws (room_joined roomId)].
Proof. done. Qed.


(** C9. A successful [join_room] stores for the connection a session whose
    room set is the one room just joined. Rooms of earlier joins are not in
    it any more, while the connection stays in their member sets. *)
Theorem join_records_only_the_latest_room env ws data st uid :
  f_type data = Some "join_room" →
  userId (closure st ws) = Some uid → uid ≠ "" →
  hasAccess (checkAccess env uid (f_creatorAddress data)) = true →
  let st' := (onMessage env ws (Json data) st).1 in
  userSessions st' !! ws
    = Some {| sess_userId := uid; rooms := [f_creatorAddress data] |}
  ∧ joinedRooms st' ws = [f_creatorAddress data]
  ∧ (∀ earlier, earlier ≠ f_creatorAddress data →
       earlier ∉ joinedRooms st' ws)
  ∧ ws ∈ membersOf st' (f_creatorAddress data)
  ∧ (∀ earlier, ws ∈ membersOf st earlier → ws ∈ membersOf st' earlier).
Proof.
  intros Hty Hid Hne Hok st'. subst st'.
  rewrite (onMessage_join_room _ _ _ _ Hty).
  rewrite (onJoinRoom_admitted _ _ _ _ _ Hid Hne Hok).
  assert (joinedRooms (addUserToRoom ws uid (f_creatorAddress data) st).1 ws
          = [f_creatorAddress data]) as Hjoined.
  { unfold joinedRooms. by rewrite addUserToRoom_session. }
  repeat split.
  - apply addUserToRoom_session.
  - done.
  - intros earlier Hdiff. rewrite Hjoined.
    by intros ->%list_elem_of_singleton.
  - rewrite addUserToRoom_members, decide_True by done.
    apply JsSet_add_elem. by left.
  - intros earlier Hin. rewrite addUserToRoom_members.
    case_decide as Heq; [|done]. subst earlier.
    apply JsSet_add_elem. by right.
Qed.

(** ** Authentication *)

(** C8 (amended). An [auth] frame always overwrites the connection's
    identity: whatever identity the connection held, after an [auth] frame
    it holds the outcome of verifying the new signature ([None] when the
    verification throws), the reply is an [auth_result] frame and never an
    error, and sessions, rooms and the other connections are as before. *)
Theorem auth_overwrites_identity env ws data st :
  f_type data = Some "auth" →
  let st' := (onMessage env ws (Json data) st).1 in
  let out := (onMessage env ws (Json data) st).2 in
  let uid := authenticateUser env (f_signature data) (f_message data) in
  userId (closure st' ws) = uid
  ∧ out = [Send ws (auth_result (truthy uid)
                      (getUserAccessibleRooms env uid))]
  ∧ userSessions st' = userSessions st
  ∧ chatRooms st' = chatRooms st
  ∧ ∀ other, other ≠ ws → closure st' other = closure st other.
Proof.
  intros Hty. rewrite (onMessage_auth _ _ _ _ Hty).
  unfold onAuth, closure. simpl. rewrite lookup_insert_eq.
  repeat split; try done.
  intros other Hne. by rewrite lookup_insert_ne.
Qed.

(** ** Frames outside the protocol *)

(** C7 (amended). A frame that [JSON.parse] rejects, or that parses to
    [null], is answered with [error "Invalid message format"]; a frame that
    parses but whose [type] is missing or is none of the three known ones
    is answered with nothing. In both cases no socket is closed and the
    state is unchanged. *)
Theorem unrecognized_frame_changes_nothing env ws message st :
  recognized message = false →
  (onMessage env ws message st).1 = st
  ∧ (onMessage env ws message st).2
    = match message with
      | Json _ => []
      | _ => [Send ws invalid_format]
      end
  ∧ ∀ c, CloseSocket c ∉ (onMessage env ws message st).2.
Proof.
  intros Hno. destruct message as [| |data]; simpl.
  - repeat split. intros c [[=]|[]%elem_of_nil]%elem_of_cons.
  - repeat split. intros c [[=]|[]%elem_of_nil]%elem_of_cons.
  - simpl in Hno. apply bool_decide_eq_false in Hno.
    rewrite !decide_False by tauto.
    repeat split. intros c []%elem_of_nil.
Qed.

(** ** Leaving *)

Lemma JsSet_delete_NoDup {A} `{EqDecision A} (x : A) (s : list A) :
  NoDup s → NoDup (JsSet.delete x s).
Proof. intros Hnd. unfold JsSet.delete. by apply NoDup_filter. Qed.

Lemma JsSet_delete_twice {A} `{EqDecision A} (x : A) (s : list A) :
  JsSet.delete x (JsSet.delete x s) = JsSet.delete x s.
Proof.
  unfold JsSet.delete. induction s as [|y s IH]; [done|].
  rewrite filter_cons. case_decide as Hne; [|done].
  rewrite filter_cons. rewrite decide_True by done. by rewrite IH.
Qed.

(** One turn of the loop: the room loses the socket, and is dropped from
    the registry when nobody is left in it. *)
Lemma leaveRoom_lookup ws (cr : gmap RoomId (list Conn)) roomId other :
  leaveRoom ws cr roomId !! other
  = if decide (other = roomId) then
      match cr !! roomId with
      | Some room =>
          if decide (JsSet.delete ws room = []) then None
          else Some (JsSet.delete ws room)
      | None => None
      end
    else cr !! other.
Proof.
  unfold leaveRoom, JsSet.size.
  destruct (cr !! roomId) as [room|] eqn:Hroom.
  - destruct (JsSet.delete ws room) as [|c rest] eqn:Hdel; simpl.
    + case_decide; [subst; apply lookup_delete_eq|by apply lookup_delete_ne].
    + case_decide; [subst; apply lookup_insert_eq|by apply lookup_insert_ne].
  - case_decide; [by subst|done].
Qed.

Lemma leaveRoom_members ws (cr : gmap RoomId (list Conn)) roomId other :
  default [] (leaveRoom ws cr roomId !! other)
  = if decide (other = roomId) then JsSet.delete ws (default [] (cr !! other))
    else default [] (cr !! other).
Proof.
  rewrite leaveRoom_lookup. case_decide as Heq; [subst other|done].
  destruct (cr !! roomId) as [room|]; simpl; [|done].
  case_decide as Hnil; simpl; by rewrite ?Hnil.
Qed.

Lemma leaveRooms_members ws roomIds (cr : gmap RoomId (list Conn)) other :
  default [] (foldl (leaveRoom ws) cr roomIds !! other)
  = if decide (other ∈ roomIds) then JsSet.delete ws (default [] (cr !! other))
    else default [] (cr !! other).
Proof.
  revert cr. induction roomIds as [|roomId roomIds IH]; intros cr; cbn [foldl].
  - rewrite decide_False; [done|]. apply not_elem_of_nil.
  - rewrite IH, leaveRoom_members.
    destruct (decide (other ∈ roomIds)) as [Hin|Hout];
      destruct (decide (other = roomId)) as [->|Hne].
    + rewrite decide_True by apply list_elem_of_here.
      apply JsSet_delete_twice.
    + rewrite decide_True; [done|]. by apply list_elem_of_further.
    + rewrite decide_True; [done|]. apply list_elem_of_here.
    + rewrite decide_False; [done|].
      intros [?|?]%elem_of_cons; done.
Qed.

(** ** Invariants of the registries *)

Lemma step_registry_move env ev st : registry_move st (step env ev st).1.
Proof.
  destruct ev as [ws message|ws]; simpl.
  - destruct message as [| |data]; simpl; try by apply move_none.
    repeat case_decide; try by apply move_none.
    + unfold onJoinRoom.
      destruct (userId (closure st ws)) as [uid|]; [|by apply move_none].
      destruct (truthy (Some uid)); [|by apply move_none].
      destruct (hasAccess _); [|by apply move_none].
      by eapply move_join.
    + unfold onSendMessage.
      destruct (userId (closure st ws)) as [uid|]; [|by apply move_none].
      destruct (truthy (Some uid)); by apply move_none.
  - unfold onClose.
    destruct (userId (closure st ws)) as [uid|]; [|by apply move_none].
    destruct (truthy (Some uid)); [by eapply move_drop|by apply move_none].
Qed.

Lemma addUserToRoom_lookup ws uid roomId st other :
  chatRooms (addUserToRoom ws uid roomId st).1 !! other
  = if decide (other = roomId) then Some (JsSet.add ws (membersOf st roomId))
    else chatRooms st !! other.
Proof.
  unfold addUserToRoom, membersOf. simpl.
  destruct (chatRooms st !! roomId) as [room|] eqn:Hroom;
    case_decide as Heq; subst;
    rewrite ?lookup_insert_eq, ?Hroom, ?lookup_insert_ne by done; done.
Qed.

Lemma JsSet_add_inhabited {A} `{EqDecision A} (x : A) (s : list A) :
  JsSet.add x s ≠ [].
Proof.
  intros Hnil. assert (x ∈ JsSet.add x s) as Hin
    by (apply JsSet_add_elem; by left).
  rewrite Hnil in Hin. by apply elem_of_nil in Hin.
Qed.

Lemma leaveRooms_lookup_Some ws roomIds (cr : gmap RoomId (list Conn))
    roomId room :
  foldl (leaveRoom ws) cr roomIds !! roomId = Some room →
  room ≠ []
  ∨ ((roomId ∉ roomIds) ∧ cr !! roomId = Some room).
Proof.
  revert cr. induction roomIds as [|r roomIds IH]; intros cr; cbn [foldl].
  - intros Hroom. right. split; [apply not_elem_of_nil|done].
  - intros [Hne|[Hout Hroom]]%IH; [by left|].
    rewrite leaveRoom_lookup in Hroom. case_decide as Heq.
    + destruct (cr !! r) as [room0|]; [|done].
      case_decide as Hnil; [done|]. injection Hroom as <-. by left.
    + right. split; [|done]. intros [?|?]%elem_of_cons; done.
Qed.

Lemma leaveRooms_NoDup ws roomIds (cr : gmap RoomId (list Conn)) :
  rooms_NoDup cr → rooms_NoDup (foldl (leaveRoom ws) cr roomIds).
Proof.
  revert cr. induction roomIds as [|r roomIds IH]; intros cr Hnd; cbn [foldl].
  - done.
  - apply IH. intros roomId room. rewrite leaveRoom_lookup.
    case_decide as Heq; [|apply Hnd].
    destruct (cr !! r) as [room0|] eqn:Hr; [|done].
    case_decide; [done|]. intros [= <-].
    apply JsSet_delete_NoDup. by eapply Hnd.
Qed.

Lemma registry_ok_init : registry_ok init.
Proof.
  split.
  - intros roomId room. simpl. by rewrite lookup_empty.
  - intros roomId room. simpl. by rewrite lookup_empty.
  - intros ws roomId. unfold joinedRooms. simpl. rewrite lookup_empty.
    by intros ?%elem_of_nil.
Qed.

Lemma registry_ok_join ws uid roomId st :
  registry_ok st → registry_ok (addUserToRoom ws uid roomId st).1.
Proof.
  intros [Hinh Hnd Hses]. split.
  - intros r room. rewrite addUserToRoom_lookup.
    case_decide; [|apply Hinh]. intros [= <-]. apply JsSet_add_inhabited.
  - intros r room. rewrite addUserToRoom_lookup.
    case_decide; [|apply Hnd]. intros [= <-]. apply JsSet_add_NoDup.
    unfold membersOf. destruct (chatRooms st !! roomId) as [room|] eqn:Hr.
    + by eapply Hnd.
    + apply NoDup_nil_2.
  - intros c r. unfold joinedRooms.
    rewrite addUserToRoom_members.
    destruct (decide (c = ws)) as [->|Hne].
    + rewrite addUserToRoom_session. simpl.
      intros ->%list_elem_of_singleton. rewrite decide_True by done.
      apply JsSet_add_elem. by left.
    + rewrite addUserToRoom_other_session by done.
      intros Hin. apply Hses in Hin.
      case_decide as Heq; [|done]. subst r.
      apply JsSet_add_elem. by right.
Qed.

Lemma registry_ok_drop ws uid st :
  registry_ok st → registry_ok (removeUserFromRooms ws uid st).
Proof.
  intros [Hinh Hnd Hses]. unfold removeUserFromRooms.
  destruct (userSessions st !! ws) as [session|] eqn:Hsession; [|done].
  split; simpl.
  - intros r room [Hne|[_ Hroom]]%leaveRooms_lookup_Some; [done|].
    by eapply Hinh.
  - by apply leaveRooms_NoDup.
  - intros c r. unfold joinedRooms, membersOf. simpl.
    destruct (decide (c = ws)) as [->|Hne].
    + rewrite lookup_delete_eq. by intros ?%elem_of_nil.
    + rewrite lookup_delete_ne by done. intros Hin.
      rewrite leaveRooms_members.
      assert (c ∈ membersOf st r) as Hmem by (by apply Hses).
      case_decide; [|done]. apply JsSet_delete_elem. done.
Qed.

Lemma registry_ok_move st st' :
  registry_move st st' → registry_ok st → registry_ok st'.
Proof.
  intros Hmove Hok.
  assert (∀ st1, userSessions st' = userSessions st1 →
                 chatRooms st' = chatRooms st1 →
                 registry_ok st1 → registry_ok st') as Hsame.
  { intros st1 Hs Hr [Hinh Hnd Hses]. split.
    - by rewrite Hr.
    - by rewrite Hr.
    - intros c r. unfold joinedRooms, membersOf. rewrite Hs, Hr. apply Hses. }
  destruct Hmove as [Hs Hr|ws uid roomId Hs Hr|ws uid Hs Hr].
  - by eapply Hsame.
  - eapply Hsame; [done..|]. by apply registry_ok_join.
  - eapply Hsame; [done..|]. by apply registry_ok_drop.
Qed.

Lemma registry_ok_run tr st : registry_ok st → registry_ok (run tr st).1.
Proof.
  revert st. induction tr as [|[env ev] tr IH]; intros st Hok; [done|].
  simpl. pose proof (step_registry_move env ev st) as Hmove.
  destruct (step env ev st) as [st1 out1]. simpl in Hmove.
  specialize (IH st1 (registry_ok_move _ _ Hmove Hok)).
  destruct (run tr st1) as [st2 out2]. done.
Qed.

(** The cleanup that does work: when the session of a closing connection
    records a room whose only member it is, the room is gone afterwards. *)
Lemma close_removes_recorded_sole_room ws st session roomId :
  truthy (userId (closure st ws)) = true →
  userSessions st !! ws = Some session →
  roomId ∈ rooms session →
  membersOf st roomId = [ws] →
  chatRooms (onClose ws st) !! roomId = None
  ∧ userSessions (onClose ws st) !! ws = None.
Proof.
  intros Hid Hsession Hin Hsole. unfold onClose, removeUserFromRooms.
  destruct (truthy_true _ Hid) as (uid & Huid & Hnonempty).
  rewrite Huid, (truthy_Some _ Hnonempty), Hsession. simpl.
  split; [|apply lookup_delete_eq].
  pose proof (leaveRooms_members ws (rooms session) (chatRooms st) roomId)
    as Hmem.
  rewrite decide_True in Hmem by done.
  unfold membersOf in Hsole. rewrite Hsole in Hmem.
  unfold JsSet.delete in Hmem. rewrite filter_cons, filter_nil in Hmem.
  rewrite decide_False in Hmem by (intros Hne; by apply Hne).
  destruct (foldl (leaveRoom ws) (chatRooms st) (rooms session) !! roomId)
    as [room|] eqn:Hroom; [|done].
  simpl in Hmem. subst room.
  apply leaveRooms_lookup_Some in Hroom as [Hne|[Hout _]]; done.
Qed.

(** After any run from the empty server: no room of the registry is
    empty, and a room recorded in a stored session has the socket among its
    members. *)
Lemma run_rooms_inhabited tr roomId room :
  chatRooms (run tr init).1 !! roomId = Some room → room ≠ [].
Proof. apply (ok_inhabited _ (registry_ok_run tr init registry_ok_init)). Qed.

Lemma run_sessions_in_rooms tr ws roomId :
  roomId ∈ joinedRooms (run tr init).1 ws →
  ws ∈ membersOf (run tr init).1 roomId.
Proof. apply (ok_sessions _ (registry_ok_run tr init registry_ok_init)). Qed.

(** * Concrete runs *)

(** C1. The membership invariant is broken by a second join: after socket
    1 joins R1 and then R2, it is a member of R1 while its session records
    R2 only. *)
Theorem second_join_forgets_first_room :
  let st := (run alice_joins_twice init).1 in
  membersOf st "R1" = [1]
  ∧ joinedRooms st 1 = ["R2"]
  ∧ 1 ∈ membersOf st "R1"
  ∧ "R1" ∉ joinedRooms st 1.
Proof. cbv zeta. repeat split; by_evaluation. Qed.

(** C6. A room outlives the disconnect of its only member: socket 1 joins
    R1 and then R2 and is the sole member of both; after it closes, R2 is
    gone but R1 is still in the registry, holding the closed socket, and no
    session is left that could ever clean it up. *)
Theorem forgotten_room_survives_disconnect :
  let before := (run alice_joins_twice init).1 in
  let after := (run (alice_joins_twice ++ [(world 1, Close 1)]) init).1 in
  membersOf before "R1" = [1]
  ∧ membersOf before "R2" = [1]
  ∧ chatRooms after !! "R1" = Some [1]
  ∧ chatRooms after !! "R2" = None
  ∧ userSessions after !! 1 = None.
Proof. cbv zeta. repeat split; by_evaluation. Qed.

(** A second way to strand a room: a later [auth] frame whose signature
    does not verify resets [userId] to [null], and the [close] handler then
    skips the cleanup altogether. *)
Lemma failed_reauth_disables_cleanup :
  let st := (run [says 1 (auth "alice"); says 1 (join_room "R");
                  says 1 (auth ""); (world 1, Close 1)] init).1 in
  userId (closure st 1) = None
  ∧ chatRooms st !! "R" = Some [1]
  ∧ joinedRooms st 1 = ["R"].
Proof. cbv zeta. repeat split; by_evaluation. Qed.

(** C3. A positive balance beyond the safe-integer range is denied: with
    a balance of 2^53 the conversion in [checkAccess] throws, [hasAccess]
    is false, and the join is answered with the access error. *)
Theorem balance_beyond_safe_integer_is_denied :
  let env := world (2 ^ 53) in
  keysBalance env "alice" "R" = Ok (2 ^ 53)%Z
  ∧ (0 < 2 ^ 53)%Z
  ∧ hasAccess (checkAccess env "alice" "R") = false
  ∧ onMessage env 1 (Json (join_room "R")) alice_online
    = (alice_online, [Send 1 no_access]).
Proof. cbv zeta. repeat split; by_evaluation. Qed.

(** C2, as stated, fails: alice (socket 1) is authenticated and not a
    member of room R, yet her [send_message] is delivered to bob, the
    member of R, and she gets no error frame. *)
Lemma send_by_non_member_is_delivered :
  let out := (onMessage (world 1) 1 (Json (send_message "R" "hi")) bob_in_R).2 in
  truthy (userId (closure bob_in_R 1)) = true
  ∧ membersOf bob_in_R "R" = [2]
  ∧ (1 ∉ membersOf bob_in_R "R")
  ∧ sentTo 2 out = [new_message "alice" "hi" 0%Z]
  ∧ sentTo 1 out = [].
Proof. cbv zeta. repeat split; by_evaluation. Qed.


(** C7, as stated, fails: a frame that parses but has no [type] is not
    answered at all, so no error frame is produced. *)
Lemma frame_without_type_gets_no_answer :
  let message := Json (fields None "" "" "" "") in
  recognized message = false
  ∧ onMessage (world 1) 1 message alice_online = (alice_online, []).
Proof. cbv zeta. repeat split; by_evaluation. Qed.

(** C8, as stated, fails: socket 1 has authenticated as alice; a second
    [auth] frame signed by bob is answered with a successful [auth_result]
    and the connection's identity is now bob. *)
Lemma second_auth_replaces_identity :
  let st' := (onMessage (world 1) 1 (Json (auth "bob")) alice_online).1 in
  let out := (onMessage (world 1) 1 (Json (auth "bob")) alice_online).2 in
  userId (closure alice_online 1) = Some "alice"
  ∧ userId (closure st' 1) = Some "bob"
  ∧ out = [Send 1 (auth_result true [])].
Proof. cbv zeta. repeat split; by_evaluation. Qed.

(** ** The general statements at work *)

(** A send to a room that does not exist, by alice. *)
Lemma send_to_absent_room_is_silent_example :
  chatRooms alice_online !! "nowhere" = None
  ∧ onMessage (world 1) 1 (Json (send_message "nowhere" "hi")) alice_online
    = (alice_online, []).
Proof.
  split; [by_evaluation|].
  apply (send_to_absent_room_is_silent (world 1) 1
           (send_message "nowhere" "hi") alice_online "alice");
    by_evaluation.
Defined.

(** Socket 7 never authenticated and is refused; alice, who is in no room,
    reaches bob in room R. *)
Lemma send_message_checks_identity_only_example :
  onMessage (world 1) 7 (Json (send_message "R" "hi")) bob_in_R
  = (bob_in_R, [Send 7 not_authenticated])
  ∧ membersOf bob_in_R "R" = [2]
  ∧ onMessage (world 1) 1 (Json (send_message "R" "hi")) bob_in_R
    = (bob_in_R, [Send 2 (new_message "alice" "hi" 0%Z)]).
Proof.
  split; [|split].
  - apply (send_message_checks_identity_only (world 1) 7
             (send_message "R" "hi") bob_in_R); by_evaluation.
  - by_evaluation.
  - pose proof (send_message_checks_identity_only (world 1) 1
                  (send_message "R" "hi") bob_in_R eq_refl) as [_ Hsend].
    rewrite (Hsend "alice"); by_evaluation.
Defined.



(** Alice, already in room R1, joins R2: the session holds R2 only, and
    she is still a member of R1. *)
Lemma join_records_only_the_latest_room_example :
  let st := (run [says 1 (auth "alice"); says 1 (join_room "R1")] init).1 in
  let st' := (onMessage (world 1) 1 (Json (join_room "R2")) st).1 in
  1 ∈ membersOf st "R1"
  ∧ joinedRooms st' 1 = ["R2"]
  ∧ ("R1" ∉ joinedRooms st' 1)
  ∧ 1 ∈ membersOf st' "R2"
  ∧ 1 ∈ membersOf st' "R1".
Proof.
  cbv zeta.
  set (st := (run [says 1 (auth "alice"); says 1 (join_room "R1")] init).1).
  assert (userId (closure st 1) = Some "alice") as Hid by by_evaluation.
  assert ("alice" ≠ "") as Hne by by_evaluation.
  assert (hasAccess (checkAccess (world 1) "alice" "R2") = true) as Hok
    by by_evaluation.
  destruct (join_records_only_the_latest_room (world 1) 1 (join_room "R2")
              st "alice" eq_refl Hid Hne Hok)
    as (_ & Hjoined & Hgone & Hnew & Hkept).
  assert (1 ∈ membersOf st "R1") as Hbefore by by_evaluation.
  split; [exact Hbefore|]. split; [exact Hjoined|].
  split; [apply Hgone; by_evaluation|]. split; [exact Hnew|].
  apply Hkept, Hbefore.
Defined.

(** Alice re-authenticates as bob, and then with a signature that does not
    verify. *)
Lemma auth_overwrites_identity_example :
  let st' := (onMessage (world 1) 1 (Json (auth "bob")) alice_online).1 in
  let st'' := (onMessage (world 1) 1 (Json (auth "")) alice_online).1 in
  userId (closure alice_online 1) = Some "alice"
  ∧ userId (closure st' 1) = Some "bob"
  ∧ userId (closure st'' 1) = None.
Proof.
  cbv zeta. split; [by_evaluation|]. split.
  - apply (auth_overwrites_identity (world 1) 1 (auth "bob") alice_online).
    by_evaluation.
  - apply (auth_overwrites_identity (world 1) 1 (auth "") alice_online).
    by_evaluation.
Defined.

(** A frame that is not JSON, and a JSON frame of an unknown type. *)
Lemma unrecognized_frame_changes_nothing_example :
  onMessage (world 1) 1 NotJson bob_in_R = (bob_in_R, [Send 1 invalid_format])
  ∧ onMessage (world 1) 1 (Json (fields (Some "ping") "" "" "" "")) bob_in_R
    = (bob_in_R, []).
Proof.
  split.
  - pose proof (unrecognized_frame_changes_nothing (world 1) 1 NotJson
                  bob_in_R eq_refl) as (Hst & Hout & _).
    rewrite (surjective_pairing (onMessage _ _ _ _)), Hst, Hout. reflexivity.
  - pose proof (unrecognized_frame_changes_nothing (world 1) 1
                  (Json (fields (Some "ping") "" "" "" "")) bob_in_R eq_refl)
      as (Hst & Hout & _).
    rewrite (surjective_pairing (onMessage _ _ _ _)), Hst, Hout. reflexivity.
Defined.

(** * Key trading *)

(** ** [buyKeys] *)

Lemma tenth_of_price price :
  (0 ≤ price)%Z →
  (10 * ((price * 10) `quot` 100) ≤ price
   < 10 * ((price * 10) `quot` 100) + 10)%Z.
Proof.
  intros Hpos. rewrite Z.quot_div_nonneg by lia.
  pose proof (Z.div_mod (price * 10) 100 ltac:(lia)) as Hdiv.
  pose proof (Z.mod_pos_bound (price * 10) 100 ltac:(lia)) as Hmod.
  lia.
Qed.

(** X1. Once the quote and the wallet are there, [buyKeys] submits exactly
    one [buyKeys] transaction, for the amount asked (1 when left out), whose
    value is the quoted price plus a fee of a tenth of it rounded down: ten
    times the fee never exceeds the price and misses it by less than ten
    wei. *)
Theorem buyKeys_pays_price_plus_tenth chain wallet creator amount price signer :
  getBuyPrice chain creator (default 1%Z amount) = Ok price →
  (0 ≤ price)%Z →
  connect chain wallet = Ok signer →
  ∃ fee, (10 * fee ≤ price < 10 * fee + 10)%Z
         ∧ (buyKeys chain wallet creator amount).2
           = [buyKeysCall signer creator (default 1%Z amount) (price + fee)].
Proof.
  intros Hquote Hpos Hconnect.
  exists ((price * 10) `quot` 100)%Z. split; [by apply tenth_of_price|].
  unfold buyKeys. rewrite Hquote, Hconnect.
  by destruct (submitBuyKeys _ _ _ _ _).
Qed.

(** X2. A price below ten wei carries no fee: the value sent is the bare
    price. *)
Theorem buyKeys_dust_price_has_no_fee chain wallet creator amount price signer :
  getBuyPrice chain creator (default 1%Z amount) = Ok price →
  (0 ≤ price < 10)%Z →
  connect chain wallet = Ok signer →
  (buyKeys chain wallet creator amount).2
  = [buyKeysCall signer creator (default 1%Z amount) price].
Proof.
  intros Hquote Hsmall Hconnect.
  unfold buyKeys. rewrite Hquote, Hconnect.
  rewrite (Z.quot_small (price * 10) 100) by lia. rewrite Z.add_0_r.
  by destruct (submitBuyKeys _ _ _ _ _).
Qed.

(** X3. [buyKeys] touches the contract only after the quote and the wallet
    connection have succeeded, and then once: a transaction is submitted
    exactly when both are there, and never more than one. *)
Theorem buyKeys_submits_only_once_quoted chain wallet creator amount :
  ((buyKeys chain wallet creator amount).2 ≠ []
   ↔ ∃ price signer,
       getBuyPrice chain creator (default 1%Z amount) = Ok price
       ∧ connect chain wallet = Ok signer)
  ∧ length (buyKeys chain wallet creator amount).2 ≤ 1.
Proof.
  unfold buyKeys.
  destruct (getBuyPrice chain creator (default 1%Z amount)) as [price|msg].
  - destruct (connect chain wallet) as [signer|msg].
    + assert (∃ price0 signer0 : _, Ok price = Ok price0
                ∧ Ok signer = @Ok Signer signer0) as Hboth by eauto.
      destruct (submitBuyKeys _ _ _ _ _); simpl; (split; [|lia]);
        split; done.
    + simpl. split; [|lia]. split; [done|].
      intros (price0 & signer0 & _ & [=]).
  - simpl. split; [|lia]. split; [done|].
    intros (price0 & signer0 & [=] & _).
Qed.

(** X4. A success reported by [buyKeys] is backed by one submitted
    transaction: the hash is the one the contract call returned, the value
    sent is the total cost reported, and the three reported amounts are the
    quote, its tenth rounded towards zero, and their sum. *)
Theorem buyKeys_success_is_backed chain wallet creator amount
    hash keyPrice fee totalCost :
  (buyKeys chain wallet creator amount).1
  = BuySuccess hash keyPrice fee totalCost →
  ∃ price signer,
    let n := default 1%Z amount in
    let feeWei := ((price * 10) `quot` 100)%Z in
    getBuyPrice chain creator n = Ok price
    ∧ connect chain wallet = Ok signer
    ∧ submitBuyKeys chain signer creator n (price + feeWei) = Ok hash
    ∧ (buyKeys chain wallet creator amount).2
      = [buyKeysCall signer creator n (price + feeWei)]
    ∧ keyPrice = formatEther chain price
    ∧ fee = formatEther chain feeWei
    ∧ totalCost = formatEther chain (price + feeWei).
Proof.
  unfold buyKeys. simpl.
  destruct (getBuyPrice chain creator (default 1%Z amount)) as [price|msg]
    eqn:Hquote; [|done].
  destruct (connect chain wallet) as [signer|msg] eqn:Hconnect; [|done].
  destruct (submitBuyKeys _ _ _ _ _) as [h|msg] eqn:Hsubmit; [|done].
  simpl. intros [= <- <- <- <-]. exists price, signer. by rewrite Hsubmit.
Qed.

(** X5. Every failure of [buyKeys] carries the message of the step that
    threw, the quote, the wallet connection or the submission, in that
    order of precedence. *)
Theorem buyKeys_failure_message chain wallet creator amount error :
  (buyKeys chain wallet creator amount).1 = TradeFailure error →
  getBuyPrice chain creator (default 1%Z amount) = Throw error
  ∨ (∃ price, getBuyPrice chain creator (default 1%Z amount) = Ok price
              ∧ connect chain wallet = Throw error)
  ∨ (∃ price signer,
       getBuyPrice chain creator (default 1%Z amount) = Ok price
       ∧ connect chain wallet = Ok signer
       ∧ submitBuyKeys chain signer creator (default 1%Z amount)
           (price + (price * 10) `quot` 100) = Throw error).
Proof.
  unfold buyKeys.
  destruct (getBuyPrice chain creator (default 1%Z amount)) as [price|msg];
    [|intros [= ->]; by left].
  destruct (connect chain wallet) as [signer|msg];
    [|intros [= ->]; right; left; eauto].
  destruct (submitBuyKeys _ _ _ _ _) as [h|msg] eqn:Hsubmit; [done|].
  intros [= ->]. right. right. eauto.
Qed.

(** ** [sellKeys] *)

(** X6. [sellKeys] sells first and asks for the price afterwards: when the
    transaction goes through and the price query then throws, the caller is
    told the sale failed, with the query's message, although the sell
    transaction has been submitted. *)
Theorem sellKeys_fails_after_selling chain wallet creator amount signer hash
    error :
  connect chain wallet = Ok signer →
  submitSellKeys chain signer creator (default 1%Z amount) = Ok hash →
  getSellPrice chain creator (default 1%Z amount) = Throw error →
  sellKeys chain wallet creator amount
  = (TradeFailure error, [sellKeysCall signer creator (default 1%Z amount)]).
Proof.
  intros Hconnect Hsubmit Hprice. unfold sellKeys.
  by rewrite Hconnect, Hsubmit, Hprice.
Qed.

(** X7. The sell transaction depends on the wallet alone: it is submitted
    exactly when the wallet connects, whatever the price queries would
    answer, and a reported success names the hash of that transaction and
    the price quoted after it. *)
Theorem sellKeys_submits_when_connected chain wallet creator amount :
  (∀ signer, connect chain wallet = Ok signer →
     (sellKeys chain wallet creator amount).2
     = [sellKeysCall signer creator (default 1%Z amount)])
  ∧ (∀ error, connect chain wallet = Throw error →
       sellKeys chain wallet creator amount = (TradeFailure error, []))
  ∧ (∀ hash salePrice,
       (sellKeys chain wallet creator amount).1 = SellSuccess hash salePrice →
       ∃ signer price,
         connect chain wallet = Ok signer
         ∧ submitSellKeys chain signer creator (default 1%Z amount) = Ok hash
         ∧ getSellPrice chain creator (default 1%Z amount) = Ok price
         ∧ salePrice = formatEther chain price).
Proof.
  unfold sellKeys. split; [|split].
  - intros signer ->.
    destruct (submitSellKeys _ _ _ _); [|done].
    by destruct (getSellPrice _ _ _).
  - by intros error ->.
  - intros hash salePrice.
    destruct (connect chain wallet) as [signer|msg]; [|done].
    destruct (submitSellKeys _ _ _ _) as [h|msg] eqn:Hsubmit; [|done].
    destruct (getSellPrice _ _ _) as [price|msg]; [|done].
    simpl. intros [= <- <-]. by exists signer, price.
Qed.

(** ** [getKeyPrice] *)

(** X8. [getKeyPrice] quotes the buy price only for the action ["buy"];
    every other action, not just ["sell"], gets the sell price. The quote
    is always for one key. *)
Theorem getKeyPrice_sells_unless_buy chain creator action supply :
  getKeySupply chain creator = Ok supply →
  action ≠ "buy" →
  getKeyPrice chain creator action = getKeyPrice chain creator "sell"
  ∧ ∀ price, getSellPrice chain creator 1 = Ok price →
             getKeyPrice chain creator action = Ok price.
Proof.
  intros Hsupply Hne. unfold getKeyPrice. rewrite Hsupply.
  rewrite decide_False by done. split; [done|]. by intros price ->.
Qed.

(** X9. [getKeyPrice] returns a price only if the supply query and the
    price query both succeed, and whatever it throws carries the message
    of the failed query behind the prefix ["Failed to get key price: "].
    In particular a failing supply query fails the call although the
    supply is not used. *)
Theorem getKeyPrice_outcomes chain creator action :
  (∀ price, getKeyPrice chain creator action = Ok price →
     (∃ supply, getKeySupply chain creator = Ok supply)
     ∧ (if decide (action = "buy") then getBuyPrice chain creator 1
        else getSellPrice chain creator 1) = Ok price)
  ∧ (∀ msg, getKeyPrice chain creator action = Throw msg →
       ∃ cause, msg = "Failed to get key price: " +:+ cause
                ∧ (getKeySupply chain creator = Throw cause
                   ∨ (if decide (action = "buy")
                      then getBuyPrice chain creator 1
                      else getSellPrice chain creator 1) = Throw cause))
  ∧ (∀ cause, getKeySupply chain creator = Throw cause →
       getKeyPrice chain creator action
       = Throw ("Failed to get key price: " +:+ cause)).
Proof.
  unfold getKeyPrice.
  destruct (getKeySupply chain creator) as [supply|cause0].
  - destruct (if decide (action = "buy") then getBuyPrice chain creator 1
              else getSellPrice chain creator 1) as [price0|cause0] eqn:Hq;
      (split; [|split]); try done.
    + intros price [= <-]. eauto.
    + intros msg [= <-]. eauto.
  - split; [|split]; try done.
    + intros msg [= <-]. eauto.
    + by intros cause [= ->].
Qed.

(** * More on the chat server *)

(** ** What every run keeps *)

Lemma sessions_single_move st st' :
  registry_move st st' →
  (∀ ws session, userSessions st !! ws = Some session →
     ∃ roomId, rooms session = [roomId]) →
  ∀ ws session, userSessions st' !! ws = Some session →
    ∃ roomId, rooms session = [roomId].
Proof.
  intros [Hs _|ws0 uid roomId Hs _|ws0 uid Hs _] Hsingle ws session;
    rewrite Hs.
  - apply Hsingle.
  - destruct (decide (ws = ws0)) as [->|Hne].
    + rewrite addUserToRoom_session. intros [= <-]. by exists roomId.
    + rewrite addUserToRoom_other_session by done. apply Hsingle.
  - unfold removeUserFromRooms.
    destruct (userSessions st !! ws0) as [session0|]; [|apply Hsingle].
    simpl. destruct (decide (ws = ws0)) as [->|Hne].
    + by rewrite lookup_delete_eq.
    + rewrite lookup_delete_ne by done. apply Hsingle.
Qed.

Lemma sessions_single_run tr st :
  (∀ ws session, userSessions st !! ws = Some session →
     ∃ roomId, rooms session = [roomId]) →
  ∀ ws session, userSessions (run tr st).1 !! ws = Some session →
    ∃ roomId, rooms session = [roomId].
Proof.
  revert st. induction tr as [|[env ev] tr IH]; intros st Hsingle; [done|].
  simpl. pose proof (step_registry_move env ev st) as Hmove.
  destruct (step env ev st) as [st1 out1]. simpl in Hmove.
  specialize (IH st1 (sessions_single_move _ _ Hmove Hsingle)).
  destruct (run tr st1) as [st2 out2]. done.
Qed.

(** X10. After any run of the server, a room that is in the registry has
    at least one member and lists no socket twice. *)
Theorem registry_rooms_inhabited_and_distinct tr roomId room :
  chatRooms (run tr init).1 !! roomId = Some room →
  room ≠ [] ∧ NoDup room.
Proof.
  intros Hroom.
  destruct (registry_ok_run tr init registry_ok_init) as [Hinh Hnd _].
  split; [by eapply Hinh|by eapply Hnd].
Qed.

(** X11. After any run of the server, a session stored for a socket
    records exactly one room, and the socket is a member of that room. *)
Theorem stored_session_names_one_joined_room tr ws session :
  userSessions (run tr init).1 !! ws = Some session →
  ∃ roomId, rooms session = [roomId]
            ∧ ws ∈ membersOf (run tr init).1 roomId.
Proof.
  intros Hsession.
  destruct (sessions_single_run tr init) with (ws := ws) (session := session)
    as [roomId Hrooms]; [|done|].
  { intros c s. simpl. by rewrite lookup_empty. }
  exists roomId. split; [done|].
  apply (ok_sessions _ (registry_ok_run tr init registry_ok_init)).
  unfold joinedRooms. rewrite Hsession, Hrooms. apply list_elem_of_here.
Qed.

(** X12. After any run of the server, a [send_message] of an authenticated
    connection delivers to no socket twice. *)
Theorem broadcast_reaches_each_socket_once tr env ws data uid :
  f_type data = Some "send_message" →
  userId (closure (run tr init).1 ws) = Some uid → uid ≠ "" →
  NoDup (recipients (onMessage env ws (Json data) (run tr init).1).2).
Proof.
  intros Hty Hid Hne.
  rewrite (onMessage_send_message _ _ _ _ Hty).
  rewrite (onSendMessage_authenticated _ _ _ _ _ Hid Hne). simpl.
  rewrite recipients_Send. apply NoDup_filter.
  unfold membersOf.
  destruct (chatRooms (run tr init).1 !! f_roomId data) as [room|] eqn:Hroom.
  - simpl. by eapply (ok_NoDup _ (registry_ok_run tr init registry_ok_init)).
  - apply NoDup_nil_2.
Qed.

(** ** Disconnecting *)

(** X13. When a connection with an identity closes, its session is
    deleted and it is no longer a member of any room that the session
    recorded; a recorded room of which it was the only member is deleted
    from the registry. *)
Theorem close_leaves_the_recorded_rooms ws st session roomId :
  truthy (userId (closure st ws)) = true →
  userSessions st !! ws = Some session →
  roomId ∈ rooms session →
  (ws ∉ membersOf (onClose ws st) roomId)
  ∧ userSessions (onClose ws st) !! ws = None
  ∧ (membersOf st roomId = [ws] → chatRooms (onClose ws st) !! roomId = None).
Proof.
  intros Hid Hsession Hin.
  split; [|split].
  - unfold onClose, removeUserFromRooms.
    destruct (truthy_true _ Hid) as (uid & Huid & Hnonempty).
    rewrite Huid, (truthy_Some _ Hnonempty), Hsession.
    unfold membersOf. simpl. rewrite leaveRooms_members.
    rewrite decide_True by done.
    intros [Hne _]%JsSet_delete_elem. done.
  - unfold onClose, removeUserFromRooms.
    destruct (truthy_true _ Hid) as (uid & Huid & Hnonempty).
    rewrite Huid, (truthy_Some _ Hnonempty), Hsession.
    apply lookup_delete_eq.
  - intros Hsole.
    by destruct (close_removes_recorded_sole_room ws st session roomId).
Qed.

(** X14. A disconnect concerns the closing socket only: every other
    socket is a member of exactly the rooms it was a member of, and keeps
    its session and its identity. *)
Theorem close_keeps_the_others ws st other :
  other ≠ ws →
  (∀ roomId, other ∈ membersOf (onClose ws st) roomId
             ↔ other ∈ membersOf st roomId)
  ∧ userSessions (onClose ws st) !! other = userSessions st !! other
  ∧ closure (onClose ws st) other = closure st other.
Proof.
  intros Hne. unfold onClose.
  destruct (userId (closure st ws)) as [uid|]; [|done].
  destruct (truthy (Some uid)); [|done].
  unfold removeUserFromRooms.
  destruct (userSessions st !! ws) as [session|]; [|done].
  split; [|split].
  - intros roomId. unfold membersOf. simpl. rewrite leaveRooms_members.
    case_decide; [|done]. rewrite JsSet_delete_elem. tauto.
  - simpl. by rewrite lookup_delete_ne.
  - done.
Qed.

(** ** One connection's frames and the other connections *)

(** X15. No frame of a connection changes anything of another connection:
    whatever [ws] sends, every other socket keeps its identity, its session
    and its room memberships. *)
Theorem message_keeps_the_others env ws message st other :
  other ≠ ws →
  let st' := (onMessage env ws message st).1 in
  closure st' other = closure st other
  ∧ userSessions st' !! other = userSessions st !! other
  ∧ ∀ roomId, other ∈ membersOf st' roomId ↔ other ∈ membersOf st roomId.
Proof.
  intros Hne st'. subst st'.
  destruct message as [| |data]; simpl; try done.
  repeat case_decide; try done.
  - unfold onAuth, closure. simpl. by rewrite lookup_insert_ne.
  - unfold onJoinRoom.
    destruct (userId (closure st ws)) as [uid|]; [|done].
    destruct (truthy (Some uid)); [|done].
    destruct (hasAccess _); [|done].
    split; [done|]. split; [by apply addUserToRoom_other_session|].
    intros roomId. rewrite addUserToRoom_members.
    case_decide as Heq; [|done]. subst roomId.
    rewrite JsSet_add_elem. tauto.
  - unfold onSendMessage.
    destruct (userId (closure st ws)) as [uid|]; [|done].
    by destruct (truthy (Some uid)).
Qed.

(** X16. What a connection's frame makes the server send to others: a
    socket other than the sender only ever gets a [new_message] frame, and
    only when the frame was a [send_message] of an authenticated sender,
    the socket is an open member of the room addressed, and the frame
    carries the sender's own identity, the content sent and the server's
    clock. *)
Theorem others_only_hear_room_messages env ws message st other frame :
  Send other frame ∈ (onMessage env ws message st).2 →
  other ≠ ws →
  ∃ data uid,
    message = Json data
    ∧ f_type data = Some "send_message"
    ∧ userId (closure st ws) = Some uid
    ∧ frame = new_message uid (f_content data) (now env)
    ∧ other ∈ membersOf st (f_roomId data)
    ∧ readyState env other = 1%Z.
Proof.
  intros Hin Hne.
  assert (∀ f, Send other frame ∈ [Send ws f] → False) as Hself.
  { intros f [[= -> _]|[]%elem_of_nil]%elem_of_cons. done. }
  destruct message as [| |data]; simpl in Hin;
    try by (exfalso; eapply Hself).
  repeat case_decide.
  - exfalso. unfold onAuth in Hin. simpl in Hin. by eapply Hself.
  - exfalso. revert Hin. unfold onJoinRoom.
    destruct (userId (closure st ws)) as [uid|]; [|apply Hself].
    destruct (truthy (Some uid)); [|apply Hself].
    destruct (hasAccess _); apply Hself.
  - revert Hin. unfold onSendMessage.
    destruct (userId (closure st ws)) as [uid|] eqn:Hid;
      [|intros []%Hself].
    destruct (truthy (Some uid)); [|intros []%Hself].
    simpl. rewrite broadcastToRoom_members.
    intros (client & [= -> ->] & [[_ Hopen] Hmem]%list_elem_of_filter)
             %list_elem_of_fmap.
    exists data, uid. done.
  - by apply elem_of_nil in Hin.
Qed.

(** ** Joining, once more *)

(** X17. A [join_room] of a connection without an identity is refused
    with [error "Not authenticated"] and changes nothing, whatever the
    ledger would say about the balance. *)
Theorem join_needs_an_identity env ws data st :
  f_type data = Some "join_room" →
  truthy (userId (closure st ws)) = false →
  onMessage env ws (Json data) st = (st, [Send ws not_authenticated]).
Proof.
  intros Hty Hno. rewrite (onMessage_join_room _ _ _ _ Hty).
  by apply onJoinRoom_unauthenticated.
Qed.

(** X18. Joining fails closed: when the balance query throws, the
    [join_room] of an authenticated connection is answered with the access
    error and changes nothing. *)
Theorem join_fails_closed env ws data st uid msg :
  f_type data = Some "join_room" →
  userId (closure st ws) = Some uid → uid ≠ "" →
  keysBalance env uid (f_creatorAddress data) = Throw msg →
  onMessage env ws (Json data) st = (st, [Send ws no_access]).
Proof.
  intros Hty Hid Hne Hthrow. rewrite (onMessage_join_room _ _ _ _ Hty).
  apply (onJoinRoom_denied _ _ _ _ uid); [done..|].
  by eapply checkAccess_ledger_unavailable.
Qed.

(** X19. [checkAccess] grants access exactly when the balance query
    answers with a positive balance that [toNumber] can convert; it then
    reports that balance as [keyCount], without an error. Whenever it
    reports an error it grants no access. *)
Theorem checkAccess_grants_with_key_count env user creator :
  (hasAccess (checkAccess env user creator) = true
   ↔ ∃ balance, keysBalance env user creator = Ok balance
                ∧ (0 < balance ≤ MAX_SAFE_INTEGER)%Z
                ∧ keyCount (checkAccess env user creator) = Some balance
                ∧ access_error (checkAccess env user creator) = None)
  ∧ (access_error (checkAccess env user creator) ≠ None →
     hasAccess (checkAccess env user creator) = false).
Proof.
  split.
  - split.
    + intros Hgrant.
      destruct (proj1 (checkAccess_hasAccess _ _ _) Hgrant)
        as (balance & Hbal & Hrange).
      exists balance. split; [done|]. split; [done|].
      unfold checkAccess, toNumber. rewrite Hbal.
      rewrite decide_True; [done|]. unfold MAX_SAFE_INTEGER in *. lia.
    + intros (balance & Hbal & Hrange & _).
      apply checkAccess_hasAccess. eauto.
  - unfold checkAccess, toNumber.
    destruct (keysBalance env user creator) as [balance|msg]; [|done].
    case_decide; [|done]. simpl. done.
Qed.

Lemma JsSet_add_member {A} `{EqDecision A} (x : A) (s : list A) :
  x ∈ s → JsSet.add x s = s.
Proof. intros Hin. unfold JsSet.add. by rewrite decide_True. Qed.

Lemma addUserToRoom_member ws uid roomId st room :
  chatRooms st !! roomId = Some room → ws ∈ room →
  userSessions st !! ws = Some {| sess_userId := uid; rooms := [roomId] |} →
  addUserToRoom ws uid roomId st = (st, [Send ws (room_joined roomId)]).
Proof.
  intros Hroom Hin Hsession. unfold addUserToRoom.
  rewrite Hroom. rewrite Hroom. simpl.
  rewrite (JsSet_add_member _ _ Hin).
  rewrite (insert_id _ _ _ Hroom).
  change (JsSet.of_list [roomId]) with [roomId].
  rewrite (insert_id _ _ _ Hsession).
  by destruct st.
Qed.

Lemma addUserToRoom_twice ws uid roomId st :
  addUserToRoom ws uid roomId (addUserToRoom ws uid roomId st).1
  = addUserToRoom ws uid roomId st.
Proof.
  rewrite (surjective_pairing (addUserToRoom ws uid roomId st)) at 2.
  rewrite addUserToRoom_out.
  apply (addUserToRoom_member _ _ _ _ (JsSet.add ws (membersOf st roomId))).
  - by rewrite addUserToRoom_lookup, decide_True.
  - apply JsSet_add_elem. by left.
  - apply addUserToRoom_session.
Qed.

(** X20. Joining is idempotent: a successful [join_room] repeated by the
    same connection for the same room, with access still granted, gives the
    same reply and leaves the state as the first one made it. *)
Theorem join_again_changes_nothing env env' ws data st uid :
  f_type data = Some "join_room" →
  userId (closure st ws) = Some uid → uid ≠ "" →
  hasAccess (checkAccess env uid (f_creatorAddress data)) = true →
  hasAccess (checkAccess env' uid (f_creatorAddress data)) = true →
  onMessage env' ws (Json data) (onMessage env ws (Json data) st).1
  = onMessage env ws (Json data) st.
Proof.
  intros Hty Hid Hne Hok Hok'.
  rewrite !(onMessage_join_room _ _ _ _ Hty).
  rewrite (onJoinRoom_admitted _ _ _ _ _ Hid Hne Hok).
  rewrite (onJoinRoom_admitted env' _ _ _ uid); [|exact Hid|done..].
  apply addUserToRoom_twice.
Qed.

(** X21. A successful [join_room] touches one room and one session: the
    room joined keeps its members in their order and gains the socket at
    the end unless it is there already, every other room and every other
    socket's session are as before, no identity changes, and the one frame
    sent is [room_joined] to the joiner. *)
Theorem join_touches_one_room_and_session env ws data st uid :
  f_type data = Some "join_room" →
  userId (closure st ws) = Some uid → uid ≠ "" →
  hasAccess (checkAccess env uid (f_creatorAddress data)) = true →
  let roomId := f_creatorAddress data in
  let st' := (onMessage env ws (Json data) st).1 in
  membersOf st' roomId
    = (if decide (ws ∈ membersOf st roomId) then membersOf st roomId
       else membersOf st roomId ++ [ws])
  ∧ (∀ other, other ≠ roomId → chatRooms st' !! other = chatRooms st !! other)
  ∧ (∀ other, other ≠ ws → userSessions st' !! other = userSessions st !! other)
  ∧ closures st' = closures st
  ∧ (onMessage env ws (Json data) st).2 = [Send ws (room_joined roomId)].
Proof.
  intros Hty Hid Hne Hok roomId st'. subst roomId st'.
  rewrite (onMessage_join_room _ _ _ _ Hty).
  rewrite (onJoinRoom_admitted _ _ _ _ _ Hid Hne Hok).
  split; [|split; [|split; [|split]]].
  - by rewrite addUserToRoom_members, decide_True.
  - intros other Hother. by rewrite addUserToRoom_lookup, decide_False.
  - intros other Hother. by apply addUserToRoom_other_session.
  - done.
  - done.
Qed.

(** ** Authenticating, once more *)

Lemma JsSet_adds {A} `{EqDecision A} (l acc : list A) :
  NoDup acc →
  NoDup (foldl (λ s x, JsSet.add x s) acc l)
  ∧ ∀ x, x ∈ foldl (λ s x, JsSet.add x s) acc l ↔ x ∈ acc ∨ x ∈ l.
Proof.
  revert acc. induction l as [|y l IH]; intros acc Hnd; simpl.
  - split; [done|]. intros x. rewrite elem_of_nil. tauto.
  - destruct (IH (JsSet.add y acc) (JsSet_add_NoDup y acc Hnd)) as [Hnd' Hel].
    split; [done|]. intros x. rewrite Hel, JsSet_add_elem, elem_of_cons. tauto.
Qed.

(** X22. The rooms offered after an [auth] are the creators of the
    user's purchase events, each listed once; when the event query throws,
    no room is offered. *)
Theorem accessible_rooms_are_the_distinct_creators env userAddress :
  NoDup (getUserAccessibleRooms env userAddress)
  ∧ (∀ subjects, queryFilter env userAddress = Ok subjects →
       ∀ creator, creator ∈ getUserAccessibleRooms env userAddress
                  ↔ creator ∈ subjects)
  ∧ (∀ msg, queryFilter env userAddress = Throw msg →
       getUserAccessibleRooms env userAddress = []).
Proof.
  unfold getUserAccessibleRooms, JsSet.of_list.
  destruct (queryFilter env userAddress) as [subjects|msg].
  - destruct (JsSet_adds subjects [] (NoDup_nil_2 (A:=string))) as [Hnd Hel].
    split; [done|]. split; [|done].
    intros ? [= <-] creator. rewrite Hel, elem_of_nil. tauto.
  - split; [apply NoDup_nil_2|]. split; [done|]. done.
Qed.

(** * The further statements at work *)

(** One key quoted at 105 wei: 115 wei are sent. *)
Lemma buyKeys_pays_price_plus_tenth_example :
  ∃ fee, (10 * fee ≤ 105 < 10 * fee + 10)%Z
         ∧ (buyKeys (chain_with (Ok 5%Z) (Ok 105%Z) (Ok 90%Z)) "w" "c" None).2
           = [buyKeysCall "w" "c" 1 (105 + fee)].
Proof.
  apply (buyKeys_pays_price_plus_tenth
           (chain_with (Ok 5%Z) (Ok 105%Z) (Ok 90%Z)) "w" "c" None 105 "w");
    by_evaluation.
Defined.

(** Three keys quoted at 7 wei: 7 wei are sent. *)
Lemma buyKeys_dust_price_has_no_fee_example :
  (buyKeys (chain_with (Ok 5%Z) (Ok 7%Z) (Ok 90%Z)) "w" "c" (Some 3%Z)).2
  = [buyKeysCall "w" "c" 3 7].
Proof.
  apply (buyKeys_dust_price_has_no_fee
           (chain_with (Ok 5%Z) (Ok 7%Z) (Ok 90%Z)) "w" "c" (Some 3%Z) 7 "w");
    by_evaluation.
Defined.

Lemma buyKeys_success_is_backed_example :
  (buyKeys (chain_with (Ok 5%Z) (Ok 105%Z) (Ok 90%Z)) "w" "c" None).1
  = BuySuccess "0xb1" "105" "10" "115"
  ∧ ∃ price signer,
      getBuyPrice (chain_with (Ok 5%Z) (Ok 105%Z) (Ok 90%Z)) "c" 1 = Ok price
      ∧ (buyKeys (chain_with (Ok 5%Z) (Ok 105%Z) (Ok 90%Z)) "w" "c" None).2
        = [buyKeysCall signer "c" 1 (price + (price * 10) `quot` 100)].
Proof.
  assert ((buyKeys (chain_with (Ok 5%Z) (Ok 105%Z) (Ok 90%Z)) "w" "c" None).1
          = BuySuccess "0xb1" "105" "10" "115") as Hok by by_evaluation.
  split; [exact Hok|].
  destruct (buyKeys_success_is_backed _ _ _ _ _ _ _ _ Hok)
    as (price & signer & Hquote & _ & _ & Hcall & _).
  exists price, signer. split; [exact Hquote|exact Hcall].
Defined.

(** A wallet that cannot connect: the message is the connection's. *)
Lemma buyKeys_failure_message_example :
  (buyKeys (chain_with (Ok 5%Z) (Ok 105%Z) (Ok 90%Z)) "" "c" None).1
  = TradeFailure "missing wallet"
  ∧ (getBuyPrice (chain_with (Ok 5%Z) (Ok 105%Z) (Ok 90%Z)) "c" 1
       = Throw "missing wallet"
     ∨ (∃ price,
          getBuyPrice (chain_with (Ok 5%Z) (Ok 105%Z) (Ok 90%Z)) "c" 1
            = Ok price
          ∧ connect (chain_with (Ok 5%Z) (Ok 105%Z) (Ok 90%Z)) ""
            = Throw "missing wallet")
     ∨ (∃ price signer,
          getBuyPrice (chain_with (Ok 5%Z) (Ok 105%Z) (Ok 90%Z)) "c" 1
            = Ok price
          ∧ connect (chain_with (Ok 5%Z) (Ok 105%Z) (Ok 90%Z)) "" = Ok signer
          ∧ submitBuyKeys (chain_with (Ok 5%Z) (Ok 105%Z) (Ok 90%Z)) signer
              "c" 1 (price + (price * 10) `quot` 100)
            = Throw "missing wallet")).
Proof.
  assert ((buyKeys (chain_with (Ok 5%Z) (Ok 105%Z) (Ok 90%Z)) "" "c" None).1
          = TradeFailure "missing wallet") as Hfail by by_evaluation.
  split; [exact Hfail|].
  exact (buyKeys_failure_message _ _ _ _ _ Hfail).
Defined.

(** The sale goes through and the price query fails. *)
Lemma sellKeys_fails_after_selling_example :
  sellKeys (chain_with (Ok 5%Z) (Ok 7%Z) (Throw "rpc")) "w" "c" (Some 3%Z)
  = (TradeFailure "rpc", [sellKeysCall "w" "c" 3]).
Proof.
  apply (sellKeys_fails_after_selling
           (chain_with (Ok 5%Z) (Ok 7%Z) (Throw "rpc")) "w" "c" (Some 3%Z)
           "w" "0x5e" "rpc"); by_evaluation.
Defined.

(** A capitalised action gets the sell price. *)
Lemma getKeyPrice_sells_unless_buy_example :
  getKeyPrice (chain_with (Ok 1%Z) (Ok 7%Z) (Ok 3%Z)) "c" "Buy" = Ok 3%Z
  ∧ getKeyPrice (chain_with (Ok 1%Z) (Ok 7%Z) (Ok 3%Z)) "c" "buy" = Ok 7%Z.
Proof.
  split; [|by_evaluation].
  assert ("Buy" ≠ "buy") as Hne by by_evaluation.
  destruct (getKeyPrice_sells_unless_buy
              (chain_with (Ok 1%Z) (Ok 7%Z) (Ok 3%Z)) "c" "Buy" 1
              eq_refl Hne) as [_ Hsell].
  apply Hsell. reflexivity.
Defined.

Lemma registry_rooms_inhabited_and_distinct_example :
  chatRooms (run busy_evening init).1 !! "R" = Some [2]
  ∧ [2] ≠ [] ∧ NoDup [2].
Proof.
  assert (chatRooms (run busy_evening init).1 !! "R" = Some [2]) as Hroom
    by by_evaluation.
  split; [exact Hroom|].
  exact (registry_rooms_inhabited_and_distinct busy_evening "R" [2] Hroom).
Defined.

Lemma stored_session_names_one_joined_room_example :
  ∃ roomId, rooms {| sess_userId := "bob"; rooms := ["R"] |} = [roomId]
            ∧ 2 ∈ membersOf (run busy_evening init).1 roomId.
Proof.
  apply (stored_session_names_one_joined_room busy_evening 2
           {| sess_userId := "bob"; rooms := ["R"] |}).
  by_evaluation.
Defined.

Lemma broadcast_reaches_each_socket_once_example :
  NoDup (recipients
           (onMessage (world 1) 3 (Json (send_message "R" "hi"))
              (run busy_evening init).1).2).
Proof.
  apply (broadcast_reaches_each_socket_once busy_evening (world 1) 3
           (send_message "R" "hi") "carol"); by_evaluation.
Defined.

(** Alice, who joined R1 and then R2, closes: she leaves R2, which is
    deleted. *)
Lemma close_leaves_the_recorded_rooms_example :
  (1 ∉ membersOf (onClose 1 (run alice_joins_twice init).1) "R2")
  ∧ userSessions (onClose 1 (run alice_joins_twice init).1) !! 1 = None
  ∧ chatRooms (onClose 1 (run alice_joins_twice init).1) !! "R2" = None.
Proof.
  assert (truthy (userId (closure (run alice_joins_twice init).1 1)) = true)
    as Hid by by_evaluation.
  assert (userSessions (run alice_joins_twice init).1 !! 1
          = Some {| sess_userId := "alice"; rooms := ["R2"] |}) as Hsession
    by by_evaluation.
  assert ("R2" ∈ ["R2"]) as Hin by apply list_elem_of_here.
  destruct (close_leaves_the_recorded_rooms 1 (run alice_joins_twice init).1
              {| sess_userId := "alice"; rooms := ["R2"] |} "R2"
              Hid Hsession Hin) as (Hleft & Hgone & Hdeleted).
  split; [exact Hleft|]. split; [exact Hgone|].
  apply Hdeleted. by_evaluation.
Defined.

(** Alice closes while bob and carol share room R with her. *)
Lemma close_keeps_the_others_example :
  (2 ∈ membersOf (onClose 1 three_in_R) "R" ↔ 2 ∈ membersOf three_in_R "R")
  ∧ userSessions (onClose 1 three_in_R) !! 2 = userSessions three_in_R !! 2
  ∧ closure (onClose 1 three_in_R) 2 = closure three_in_R 2.
Proof.
  assert (2 ≠ 1) as Hne by by_evaluation.
  destruct (close_keeps_the_others 1 three_in_R 2 Hne) as (Hmem & Hs & Hc).
  split; [exact (Hmem "R")|]. split; [exact Hs|exact Hc].
Defined.

(** Alice re-authenticates as mallory; bob is not concerned. *)
Lemma message_keeps_the_others_example :
  closure (onMessage (world 1) 1 (Json (auth "mallory")) three_in_R).1 2
  = closure three_in_R 2
  ∧ userSessions (onMessage (world 1) 1 (Json (auth "mallory")) three_in_R).1
      !! 2
    = userSessions three_in_R !! 2.
Proof.
  assert (2 ≠ 1) as Hne by by_evaluation.
  destruct (message_keeps_the_others (world 1) 1 (Json (auth "mallory"))
              three_in_R 2 Hne) as (Hc & Hs & _).
  split; [exact Hc|exact Hs].
Defined.

(** What bob gets when alice sends to room R. *)
Lemma others_only_hear_room_messages_example :
  ∃ data uid,
    Json (send_message "R" "hi") = Json data
    ∧ f_type data = Some "send_message"
    ∧ userId (closure three_in_R 1) = Some uid
    ∧ new_message "alice" "hi" 0%Z
      = new_message uid (f_content data) (now (world 1))
    ∧ 2 ∈ membersOf three_in_R (f_roomId data)
    ∧ readyState (world 1) 2 = 1%Z.
Proof.
  apply (others_only_hear_room_messages (world 1) 1
           (Json (send_message "R" "hi")) three_in_R 2
           (new_message "alice" "hi" 0%Z)); [|by_evaluation].
  assert ((onMessage (world 1) 1 (Json (send_message "R" "hi")) three_in_R).2
          = [Send 2 (new_message "alice" "hi" 0%Z);
             Send 3 (new_message "alice" "hi" 0%Z)]) as -> by by_evaluation.
  apply list_elem_of_here.
Defined.

(** Socket 7 never authenticated. *)
Lemma join_needs_an_identity_example :
  onMessage (world 1) 7 (Json (join_room "R")) bob_in_R
  = (bob_in_R, [Send 7 not_authenticated]).
Proof.
  apply (join_needs_an_identity (world 1) 7 (join_room "R") bob_in_R);
    by_evaluation.
Defined.

Lemma join_fails_closed_example :
  onMessage ledger_down 1 (Json (join_room "R")) alice_online
  = (alice_online, [Send 1 no_access]).
Proof.
  apply (join_fails_closed ledger_down 1 (join_room "R") alice_online "alice"
           "network error"); by_evaluation.
Defined.

(** Bob joins R a second time, holding five keys by then. *)
Lemma join_again_changes_nothing_example :
  onMessage (world 5) 2 (Json (join_room "R"))
    (onMessage (world 1) 2 (Json (join_room "R")) bob_in_R).1
  = onMessage (world 1) 2 (Json (join_room "R")) bob_in_R.
Proof.
  apply (join_again_changes_nothing (world 1) (world 5) 2 (join_room "R")
           bob_in_R "bob"); by_evaluation.
Defined.

(** Alice joins bob in room R. *)
Lemma join_touches_one_room_and_session_example :
  membersOf (onMessage (world 1) 1 (Json (join_room "R")) bob_in_R).1 "R"
  = [2; 1]
  ∧ userSessions (onMessage (world 1) 1 (Json (join_room "R")) bob_in_R).1
      !! 2
    = userSessions bob_in_R !! 2.
Proof.
  assert (userId (closure bob_in_R 1) = Some "alice") as Hid by by_evaluation.
  assert ("alice" ≠ "") as Hne by by_evaluation.
  assert (hasAccess (checkAccess (world 1) "alice" "R") = true) as Hok
    by by_evaluation.
  destruct (join_touches_one_room_and_session (world 1) 1 (join_room "R")
              bob_in_R "alice" eq_refl Hid Hne Hok)
    as (Hmem & _ & Hses & _).
  split.
  - etrans; [exact Hmem|by_evaluation].
  - apply Hses. by_evaluation.
Defined.
